(** * BlockBreaker: the game-state core of [blockbreaker.cpp]

    A shallow embedding of the simulation part of the program (the structs
    [Ball], [Paddle], [Block] and the class [BlockBreakerGame]) together with
    the properties of its natural-language specification.

    The program computes on C++ [double]s and calls [sqrt], [sin], [cos]
    (libm) and [rand] (libc).  The embedding is written once over an
    interface [Scalar] of the operations the program applies to a [double],
    and is read at two instances:
    - [binary64]: IEEE 754 binary64 (Rocq's primitive floats), which runs;
    - [exact_arith]: the real numbers, the rounding-free reading in which
      the specification phrases its geometric and trigonometric statements.
    Facts about the control flow of the program are proved for every
    instance.  libm and [rand] are parameters of the development. *)

From Stdlib Require Import Ascii String DecimalString.
From Stdlib Require Import ZArith List Bool Lia.
From Stdlib Require Import Floats Uint63.
From Stdlib Require Import Reals Lra Psatz.
Import ListNotations.

Set Implicit Arguments.
Local Open Scope Z_scope.

(** ** Numbers *)

(** The operations [blockbreaker.cpp] uses on a [double].  [flt] and [fle] are
    [<] and [<=]; [a > b] and [a >= b] are read as [b < a] and [b <= a]. *)
Class Scalar (T : Type) : Type := {
  fadd : T -> T -> T;
  fsub : T -> T -> T;
  fmul : T -> T -> T;
  fdiv : T -> T -> T;
  fneg : T -> T;
  fabs : T -> T;
  fsqrt : T -> T;
  fsin : T -> T;
  fcos : T -> T;
  flt : T -> T -> bool;
  fle : T -> T -> bool;
  feq : T -> T -> bool;
  of_int : Z -> T;
  M_PI : T;
  INFINITY : T
}.

Declare Scope D_scope.
Delimit Scope D_scope with D.
Infix "+" := fadd : D_scope.
Infix "-" := fsub : D_scope.
Infix "*" := fmul : D_scope.
Infix "/" := fdiv : D_scope.
Notation "- x" := (fneg x) : D_scope.
Infix "<?" := flt : D_scope.
Infix "<=?" := fle : D_scope.
Infix "=?" := feq : D_scope.
Notation "a >? b" := (flt b a) : D_scope.
Notation "a >=? b" := (fle b a) : D_scope.

(** A decimal literal [n/d] of the source ([0.1], [0.3]).  Both [n] and [d]
    are small integers, exactly representable, so that the correctly rounded
    quotient is the [double] the compiler produces for the literal. *)
Definition dec {T} `{Scalar T} (n d : Z) : T := (of_int n / of_int d)%D.

(** [std::max] and [std::min] on [double], as <algorithm> defines them. *)
Definition std_max {T} `{Scalar T} (a b : T) : T := if (a <? b)%D then b else a.
Definition std_min {T} `{Scalar T} (a b : T) : T := if (b <? a)%D then b else a.

(** *** binary64 *)

Module B64.

Definition of_int (z : Z) : float :=
  if (z <? 0)%Z then PrimFloat.opp (PrimFloat.of_uint63 (Uint63.of_Z (- z)))
  else PrimFloat.of_uint63 (Uint63.of_Z z).

Fixpoint horner (cs : list float) (x : float) : float :=
  match cs with
  | [] => 0%float
  | c :: r => (c + x * horner r x)%float
  end.

Fixpoint factorial (n : nat) : Z :=
  match n with
  | O => 1%Z
  | S k => (Z.of_nat n * factorial k)%Z
  end.

Definition sign (k : nat) : float := if Nat.even k then 1%float else (-1)%float.

Definition sin_coefs : list float :=
  map (fun k => (sign k / of_int (factorial (2 * k + 1)))%float) (seq 0 12).

Definition cos_coefs : list float :=
  map (fun k => (sign k / of_int (factorial (2 * k)))%float) (seq 0 12).

(** libm is not part of the repository: [sin] and [cos] are parameters of
    the binary64 instance.  Where a run has to be computed, these polynomials
    stand for them; on the arguments the program passes ([M_PI / 4] and
    angles in [[-M_PI/3, M_PI/3]]) they are accurate to the last bit or two. *)
Definition sin (x : float) : float := (x * horner sin_coefs (x * x))%float.
Definition cos (x : float) : float := horner cos_coefs (x * x)%float.

End B64.

(** IEEE 754 binary64 with the libm functions [libm_sin] and [libm_cos]. *)
Definition binary64 (libm_sin libm_cos : float -> float) : Scalar float := {|
  fadd := PrimFloat.add;
  fsub := PrimFloat.sub;
  fmul := PrimFloat.mul;
  fdiv := PrimFloat.div;
  fneg := PrimFloat.opp;
  fabs := PrimFloat.abs;
  fsqrt := PrimFloat.sqrt;
  fsin := libm_sin;
  fcos := libm_cos;
  flt := PrimFloat.ltb;
  fle := PrimFloat.leb;
  feq := PrimFloat.eqb;
  of_int := B64.of_int;
  M_PI := 0x1.921fb54442d18p+1%float;
  INFINITY := infinity
|}.

(** *** Exact arithmetic *)

Module Exact.

Definition ltb (x y : R) : bool := if Rlt_dec x y then true else false.
Definition leb (x y : R) : bool := if Rle_dec x y then true else false.
Definition eqb (x y : R) : bool := if Req_dec_T x y then true else false.

End Exact.

(** The real numbers, with the real [sqrt], [sin], [cos] and [PI].  They
    have no infinity: [inf] is whatever real stands for the macro [INFINITY],
    and every statement below holds for each. *)
Definition exact_arith (inf : R) : Scalar R := {|
  fadd := Rplus;
  fsub := Rminus;
  fmul := Rmult;
  fdiv := Rdiv;
  fneg := Ropp;
  fabs := Rabs;
  fsqrt := sqrt;
  fsin := sin;
  fcos := cos;
  flt := Exact.ltb;
  fle := Exact.leb;
  feq := Exact.eqb;
  of_int := IZR;
  M_PI := PI;
  INFINITY := inf
|}.

(** ** Game constants *)

Definition WINDOW_WIDTH : Z := 800.
Definition WINDOW_HEIGHT : Z := 600.
Definition PADDLE_WIDTH : Z := 100.
Definition PADDLE_HEIGHT : Z := 20.
Definition BALL_RADIUS : Z := 10.
Definition BLOCK_WIDTH : Z := 80.
Definition BLOCK_HEIGHT : Z := 30.
Definition BLOCK_ROWS : Z := 5.
Definition BLOCK_COLS : Z := 9.
Definition BLOCK_SPACING : Z := 5.
Definition TOP_MARGIN : Z := 50.
Definition SIDE_MARGIN : Z := 20.
Definition BALL_SPEED {T} `{Scalar T} : T := of_int 5.

(** ** Game objects *)

Module Ball.

Record t (T : Type) : Type := mk {
  x : T;
  y : T;
  dx : T;
  dy : T;
  radius : Z
}.

Definition set_x {T} (b : t T) (v : T) : t T := mk v (y b) (dx b) (dy b) (radius b).
Definition set_y {T} (b : t T) (v : T) : t T := mk (x b) v (dx b) (dy b) (radius b).
Definition set_dx {T} (b : t T) (v : T) : t T := mk (x b) (y b) v (dy b) (radius b).
Definition set_dy {T} (b : t T) (v : T) : t T := mk (x b) (y b) (dx b) v (radius b).

(** [Ball::Ball]: 45 degrees, upward. *)
Definition new {T} `{Scalar T} (startX startY : T) (r : Z) : t T :=
  let angle := (M_PI / of_int 4)%D in
  mk startX startY (BALL_SPEED * fcos angle)%D (- BALL_SPEED * fsin angle)%D r.

(** [Ball::move] *)
Definition move {T} `{Scalar T} (b : t T) : t T :=
  let b := set_x b (x b + dx b)%D in
  set_y b (y b + dy b)%D.

End Ball.

Module Paddle.

Record t (T : Type) : Type := mk {
  x : T;
  y : T;
  width : Z;
  height : Z
}.

Definition set_x {T} (p : t T) (v : T) : t T := mk v (y p) (width p) (height p).

(** [Paddle::move].  [width / 2] divides two [int]s ([Z.quot]) before the
    conversion to [double]. *)
Definition move {T} `{Scalar T} (p : t T) (newX : T) : t T :=
  if (newX - of_int (width p ÷ 2) <? of_int 0)%D then
    set_x p (of_int (width p ÷ 2))
  else if (newX + of_int (width p ÷ 2) >? of_int WINDOW_WIDTH)%D then
    set_x p (of_int (WINDOW_WIDTH - width p ÷ 2))
  else
    set_x p newX.

End Paddle.

Module Block.

Record t (T : Type) : Type := mk {
  x : T;
  y : T;
  width : Z;
  height : Z;
  active : bool;
  r : T;
  g : T;
  b : T
}.

Definition set_active {T} (k : t T) (v : bool) : t T :=
  mk (x k) (y k) (width k) (height k) v (r k) (g k) (b k).

End Block.

(** ** The game *)

Record Game (T G : Type) : Type := mkGame {
  ball : Ball.t T;
  paddle : Paddle.t T;
  blocks : list (Block.t T);
  gameRunning : bool;
  gameOver : bool;
  score : Z;
  lives : Z;
  rng : G   (* the state behind [rand()] *)
}.

Section BlockBreakerGame.

Context {T : Type} `{Scalar T}.

(** libc's generator: [rand g] is the value [rand()] returns and the state
    it leaves. *)
Context {G : Type} (rand : G -> Z * G).

(** [Block::Block]: three calls of [rand()] pick the colour. *)
Definition Block_new (startX startY : T) (w h : Z) (g0 : G) : Block.t T * G :=
  let c1 := rand g0 in
  let r := (dec 3 10 + of_int (Z.rem (fst c1) 70) / of_int 100)%D in
  let c2 := rand (snd c1) in
  let g := (dec 3 10 + of_int (Z.rem (fst c2) 70) / of_int 100)%D in
  let c3 := rand (snd c2) in
  let b := (dec 3 10 + of_int (Z.rem (fst c3) 70) / of_int 100)%D in
  (Block.mk startX startY w h true r g b, snd c3).

(** The inner loop of [resetGame]: columns [col .. col + n - 1] of one row. *)
Fixpoint reset_cols (n : nat) (row col : Z) (acc : list (Block.t T)) (g0 : G)
  : list (Block.t T) * G :=
  match n with
  | O => (acc, g0)
  | S n' =>
      let blockX := of_int (SIDE_MARGIN + col * (BLOCK_WIDTH + BLOCK_SPACING)) in
      let blockY := of_int (TOP_MARGIN + row * (BLOCK_HEIGHT + BLOCK_SPACING)) in
      let k := Block_new blockX blockY BLOCK_WIDTH BLOCK_HEIGHT g0 in
      reset_cols n' row (col + 1) (acc ++ [fst k]) (snd k)
  end.

(** The outer loop: rows [row .. row + n - 1]. *)
Fixpoint reset_rows (n : nat) (row : Z) (acc : list (Block.t T)) (g0 : G)
  : list (Block.t T) * G :=
  match n with
  | O => (acc, g0)
  | S n' =>
      let r := reset_cols (Z.to_nat BLOCK_COLS) row 0 acc g0 in
      reset_rows n' (row + 1) (fst r) (snd r)
  end.

(** The body of [resetGame]; the members it does not assign ([score],
    [lives]) are passed through. *)
Definition reset_with (score0 lives0 : Z) (g0 : G) : Game T G :=
  let ball := Ball.new (of_int (WINDOW_WIDTH ÷ 2)) (of_int (WINDOW_HEIGHT - 50)) BALL_RADIUS in
  let paddle :=
    Paddle.mk (of_int (WINDOW_WIDTH ÷ 2)) (of_int (WINDOW_HEIGHT - 30))
              PADDLE_WIDTH PADDLE_HEIGHT in
  let r := reset_rows (Z.to_nat BLOCK_ROWS) 0 [] g0 in
  mkGame ball paddle (fst r) false false score0 lives0 (snd r).

(** [BlockBreakerGame::resetGame] *)
Definition resetGame (s : Game T G) : Game T G := reset_with (score s) (lives s) (rng s).

(** [BlockBreakerGame::BlockBreakerGame]: the member initialisers
    [score(0), lives(3)], then [resetGame()]. *)
Definition BlockBreakerGame (g0 : G) : Game T G := reset_with 0 3 g0.

(** [BlockBreakerGame::start] *)
Definition start (s : Game T G) : Game T G :=
  mkGame (ball s) (paddle s) (blocks s) true (gameOver s) (score s) (lives s) (rng s).

(** [BlockBreakerGame::movePaddle] *)
Definition movePaddle (s : Game T G) (x : T) : Game T G :=
  let paddle := Paddle.move (paddle s) x in
  let ball :=
    if negb (gameRunning s) && negb (gameOver s)
    then Ball.set_x (ball s) (Paddle.x paddle)
    else ball s in
  mkGame ball paddle (blocks s) (gameRunning s) (gameOver s) (score s) (lives s) (rng s).

(** *** [BlockBreakerGame::update], block by block *)

(** "Check for collisions with walls" *)
Definition wall_collision (b : Ball.t T) : Ball.t T :=
  let b :=
    if (Ball.x b - of_int (Ball.radius b) <=? of_int 0)%D
       || (Ball.x b + of_int (Ball.radius b) >=? of_int WINDOW_WIDTH)%D
    then Ball.set_dx b (- Ball.dx b)%D
    else b in
  if (Ball.y b - of_int (Ball.radius b) <=? of_int 0)%D
  then Ball.set_dy b (- Ball.dy b)%D
  else b.

(** "Check for collision with paddle": the condition. *)
Definition paddle_hit (b : Ball.t T) (p : Paddle.t T) : bool :=
  (Ball.y b + of_int (Ball.radius b) >=? Paddle.y p - of_int (Paddle.height p ÷ 2))%D
  && (Ball.y b - of_int (Ball.radius b) <=? Paddle.y p + of_int (Paddle.height p ÷ 2))%D
  && (Ball.x b >=? Paddle.x p - of_int (Paddle.width p ÷ 2))%D
  && (Ball.x b <=? Paddle.x p + of_int (Paddle.width p ÷ 2))%D.

(** The body of that [if]. *)
Definition paddle_bounce (b : Ball.t T) (p : Paddle.t T) : Ball.t T :=
  let hitPos := ((Ball.x b - Paddle.x p) / of_int (Paddle.width p ÷ 2))%D in
  let angle := (hitPos * (M_PI / of_int 3))%D in
  let b := Ball.set_dy b (- fabs (Ball.dy b))%D in
  let speed := fsqrt (Ball.dx b * Ball.dx b + Ball.dy b * Ball.dy b)%D in
  let b := Ball.set_dx b (speed * fsin angle)%D in
  Ball.set_dy b (- speed * fcos angle)%D.

Definition paddle_collision (b : Ball.t T) (p : Paddle.t T) : Ball.t T :=
  if paddle_hit b p then paddle_bounce b p else b.

(** "Calculate the closest point on the block to the ball" *)
Definition closestX (b : Ball.t T) (k : Block.t T) : T :=
  std_max (Block.x k) (std_min (Ball.x b) (Block.x k + of_int (Block.width k))%D).

Definition closestY (b : Ball.t T) (k : Block.t T) : T :=
  std_max (Block.y k) (std_min (Ball.y b) (Block.y k + of_int (Block.height k))%D).

Definition distanceSquared (b : Ball.t T) (k : Block.t T) : T :=
  let distanceX := (Ball.x b - closestX b k)%D in
  let distanceY := (Ball.y b - closestY b k)%D in
  (distanceX * distanceX + distanceY * distanceY)%D.

(** "Calculate time of collision with each side", "Find the earliest
    collision": the first value given to [collisionSide]
    (0 = top, 1 = right, 2 = bottom, 3 = left). *)
Definition time_side (b : Ball.t T) (k : Block.t T) : Z :=
  let ball_right := (Ball.x b + of_int (Ball.radius b))%D in
  let ball_left := (Ball.x b - of_int (Ball.radius b))%D in
  let ball_top := (Ball.y b - of_int (Ball.radius b))%D in
  let ball_bottom := (Ball.y b + of_int (Ball.radius b))%D in
  let block_right := (Block.x k + of_int (Block.width k))%D in
  let block_left := Block.x k in
  let block_top := Block.y k in
  let block_bottom := (Block.y k + of_int (Block.height k))%D in
  let t_left :=
    if (Ball.dx b >? of_int 0)%D then ((block_left - ball_right) / Ball.dx b)%D else INFINITY in
  let t_right :=
    if (Ball.dx b <? of_int 0)%D then ((block_right - ball_left) / Ball.dx b)%D else INFINITY in
  let t_top :=
    if (Ball.dy b >? of_int 0)%D then ((block_top - ball_bottom) / Ball.dy b)%D else INFINITY in
  let t_bottom :=
    if (Ball.dy b <? of_int 0)%D then ((block_bottom - ball_top) / Ball.dy b)%D else INFINITY in
  let t := std_min (std_min t_left t_right) (std_min t_top t_bottom) in
  if (t =? t_left)%D then 3
  else if (t =? t_right)%D then 1
  else if (t =? t_top)%D then 0
  else 2.

(** "Determine impact side by checking where the closest point is on the
    block": the second value given to [collisionSide]. *)
Definition closest_side (b : Ball.t T) (k : Block.t T) : Z :=
  if (closestX b k =? Block.x k)%D then 3
  else if (closestX b k =? Block.x k + of_int (Block.width k))%D then 1
  else if (closestY b k =? Block.y k)%D then 0
  else 2.

(** The collision test of one block: the locals [collision] and
    [collisionSide] after the [if].  [collisionSide] is assigned twice; the
    first assignment is the parameter [first] ([time_side] in the program).
    The variable is a [double] holding 0, 1, 2 or 3, read back through
    [static_cast<int>]; it is an integer here. *)
Definition block_collision_with (first : Ball.t T -> Block.t T -> Z)
  (b : Ball.t T) (k : Block.t T) : bool * Z :=
  let collision := false in
  let collisionSide := 0 in
  if (distanceSquared b k <? of_int (Ball.radius b * Ball.radius b))%D then
    let collision := true in
    let collisionSide := first b k in
    let collisionSide := closest_side b k in
    (collision, collisionSide)
  else (collision, collisionSide).

Definition block_collision : Ball.t T -> Block.t T -> bool * Z :=
  block_collision_with time_side.

(** "Change direction based on which side was hit" and "Normalize speed to
    keep it consistent". *)
Definition bounce_off (b : Ball.t T) (collisionSide : Z) (g0 : G) : Ball.t T * G :=
  let perturb (n : Z) : T := (of_int (Z.rem n 100) / of_int 500 - dec 1 10)%D in
  let bg :=
    if (collisionSide =? 0) || (collisionSide =? 2) then
      let b := Ball.set_dy b (- Ball.dy b)%D in
      let c := rand g0 in
      (Ball.set_dx b (Ball.dx b + perturb (fst c))%D, snd c)
    else if (collisionSide =? 1) || (collisionSide =? 3) then
      let b := Ball.set_dx b (- Ball.dx b)%D in
      let c := rand g0 in
      (Ball.set_dy b (Ball.dy b + perturb (fst c))%D, snd c)
    else (b, g0) in
  let b := fst bg in
  let speed := fsqrt (Ball.dx b * Ball.dx b + Ball.dy b * Ball.dy b)%D in
  let b := Ball.set_dx b (Ball.dx b / speed * BALL_SPEED)%D in
  (Ball.set_dy b (Ball.dy b / speed * BALL_SPEED)%D, snd bg).

(** "Check for collisions with blocks": the loop over [blocks], which stops
    at the first active block that collides. *)
Fixpoint hit_blocks (coll : Ball.t T -> Block.t T -> bool * Z)
  (b : Ball.t T) (ks : list (Block.t T)) (score0 : Z) (g0 : G)
  : Ball.t T * list (Block.t T) * Z * G :=
  match ks with
  | [] => (b, [], score0, g0)
  | k :: rest =>
      if negb (Block.active k) then
        let '(b', rest', score', g') := hit_blocks coll b rest score0 g0 in
        (b', k :: rest', score', g')
      else
        let '(collision, collisionSide) := coll b k in
        if collision then
          let bg := bounce_off b collisionSide g0 in
          (fst bg, Block.set_active k false :: rest, score0 + 10, snd bg)
        else
          let '(b', rest', score', g') := hit_blocks coll b rest score0 g0 in
          (b', k :: rest', score', g')
  end.

(** "Check if ball falls below the screen" *)
Definition ball_lost (s : Game T G) : Game T G :=
  let b := ball s in
  if (Ball.y b - of_int (Ball.radius b) >? of_int WINDOW_HEIGHT)%D then
    let lives := lives s - 1 in
    if lives <=? 0 then
      mkGame b (paddle s) (blocks s) (gameRunning s) true (score s) lives (rng s)
    else
      let b := Ball.set_x b (Paddle.x (paddle s)) in
      let b := Ball.set_y b (of_int (WINDOW_HEIGHT - 50)) in
      let b := Ball.set_dx b (BALL_SPEED * fcos (M_PI / of_int 4))%D in
      let b := Ball.set_dy b (- BALL_SPEED * fsin (M_PI / of_int 4))%D in
      mkGame b (paddle s) (blocks s) false (gameOver s) (score s) lives (rng s)
  else s.

(** "Check if all blocks are destroyed" *)
Definition allBlocksDestroyed (ks : list (Block.t T)) : bool :=
  forallb (fun k => negb (Block.active k)) ks.

Definition check_win (s : Game T G) : Game T G :=
  if allBlocksDestroyed (blocks s) then
    mkGame (ball s) (paddle s) (blocks s) (gameRunning s) true (score s) (lives s) (rng s)
  else s.

(** The whole of [update], over the collision test [coll] of a block. *)
Definition update_with (coll : Ball.t T -> Block.t T -> bool * Z) (s : Game T G)
  : bool * Game T G :=
  if negb (gameRunning s) || gameOver s then (true, s)
  else
    let b := Ball.move (ball s) in
    let b := wall_collision b in
    let b := paddle_collision b (paddle s) in
    let '(b, ks, score1, g1) := hit_blocks coll b (blocks s) (score s) (rng s) in
    let s := mkGame b (paddle s) ks (gameRunning s) (gameOver s) score1 (lives s) g1 in
    let s := ball_lost s in
    let s := check_win s in
    (true, s).

(** [BlockBreakerGame::update] *)
Definition update (s : Game T G) : bool * Game T G := update_with block_collision s.

(** The state [update()] leaves. *)
Definition tick (s : Game T G) : Game T G := snd (update s).

(** *** The callbacks of [main] on the global [game] *)

Definition on_timeout (s : Game T G) : Game T G := tick s.

Definition on_motion_notify (s : Game T G) (event_x : T) : Game T G := movePaddle s event_x.

Definition on_button_press (s : Game T G) : Game T G :=
  if negb (gameRunning s) then
    let s := if gameOver s then resetGame s else s in
    start s
  else s.

(** ** Runs of the game *)

(** The four operations of the simulation: [reset()], [set_paddle_x(px)],
    [start()] and [tick()] of the specification are the public member
    functions [resetGame()], [movePaddle(px)], [start()] and [update()]. *)
Inductive Op : Type :=
| Reset
| SetPaddleX (px : T)
| Start
| Tick.

Definition apply_op (s : Game T G) (o : Op) : Game T G :=
  match o with
  | Reset => resetGame s
  | SetPaddleX px => movePaddle s px
  | Start => start s
  | Tick => tick s
  end.

Definition run (s : Game T G) (ops : list Op) : Game T G := fold_left apply_op ops s.

(** The states of a game object: those its constructor and then any
    sequence of operations produce. *)
Inductive reachable : Game T G -> Prop :=
| reachable_new : forall g0, reachable (BlockBreakerGame g0)
| reachable_op : forall s o, reachable s -> reachable (apply_op s o).

(** The same without [resetGame()] after the construction. *)
Inductive reachable_in_round : Game T G -> Prop :=
| in_round_new : forall g0, reachable_in_round (BlockBreakerGame g0)
| in_round_op : forall s o, reachable_in_round s -> o <> Reset ->
    reachable_in_round (apply_op s o).

(** ** Vocabulary of the specification *)

Definition all_active (ks : list (Block.t T)) : bool := forallb (@Block.active T) ks.

Definition inactive_count (ks : list (Block.t T)) : Z :=
  Z.of_nat (length (filter (fun k => negb (Block.active k)) ks)).

Definition score_per_block : Z := 10.

(** "no block is active" *)
Definition no_block_active (ks : list (Block.t T)) : Prop :=
  forall k, In k ks -> Block.active k = false.

(** "[score] equals [score_per_block] x (count of inactive blocks)" *)
Definition score_counts (s : Game T G) : Prop :=
  score s = score_per_block * inactive_count (blocks s).

(** "[over = true] iff ([lives == 0]) or (no block is active)" *)
Definition over_iff (s : Game T G) : Prop :=
  gameOver s = true <-> (lives s = 0 \/ no_block_active (blocks s)).

(** Two balls at the same place: position and radius. *)
Definition same_place (b b' : Ball.t T) : Prop :=
  Ball.x b' = Ball.x b /\ Ball.y b' = Ball.y b /\ Ball.radius b' = Ball.radius b.

(** The paddle as [resetGame] makes it, wherever it is moved. *)
Definition paddle_shape (p : Paddle.t T) : Prop :=
  Paddle.y p = of_int (WINDOW_HEIGHT - 30)
  /\ Paddle.width p = PADDLE_WIDTH /\ Paddle.height p = PADDLE_HEIGHT.

(** The sides of a block, and the numbers the program gives them. *)
Inductive Side : Type := Top | Right | Bottom | Left.

Definition side_code (sd : Side) : Z :=
  match sd with
  | Top => 0
  | Right => 1
  | Bottom => 2
  | Left => 3
  end.

(** Specification 4.1, [closest_point_on_rect]: clamp the centre to the
    rectangle. *)
Definition closest_point_on_rect (cx cy rx ry : T) (rw rh : Z) : T * T :=
  (std_max rx (std_min cx (rx + of_int rw)%D), std_max ry (std_min cy (ry + of_int rh)%D)).

(** Specification 4.1, [circle_rect_overlap]: the squared distance from the
    centre to the closest point is strictly less than [r * r]. *)
Definition circle_rect_overlap (b : Ball.t T) (k : Block.t T) : bool :=
  let p := closest_point_on_rect (Ball.x b) (Ball.y b) (Block.x k) (Block.y k)
             (Block.width k) (Block.height k) in
  let ex := (Ball.x b - fst p)%D in
  let ey := (Ball.y b - snd p)%D in
  (ex * ex + ey * ey <? of_int (Ball.radius b * Ball.radius b))%D.

(** Specification 4.3 (d), the nearest-point rule: [closestX == block.x] is
    left; [closestX == block.x + BW] is right; [closestY == block.y] is top;
    else bottom. *)
Definition nearest_point_side (b : Ball.t T) (k : Block.t T) : Side :=
  let p := closest_point_on_rect (Ball.x b) (Ball.y b) (Block.x k) (Block.y k)
             (Block.width k) (Block.height k) in
  if (fst p =? Block.x k)%D then Left
  else if (fst p =? Block.x k + of_int (Block.width k))%D then Right
  else if (snd p =? Block.y k)%D then Top
  else Bottom.

(** The collision test of a block as the specification words it. *)
Definition nearest_point_collision (b : Ball.t T) (k : Block.t T) : bool * Z :=
  if circle_rect_overlap b k then (true, side_code (nearest_point_side b k))
  else (false, 0).

(** The ball of [update()] after "Move the ball" and the wall check, where
    the paddle check reads it. *)
Definition moved_ball (s : Game T G) : Ball.t T := wall_collision (Ball.move (ball s)).

(** The ball's bounding extent (centre +- radius in both axes) meets the
    paddle's rectangle (centre +- half-width, +- half-height). *)
Definition extent_overlaps_paddle (b : Ball.t T) (p : Paddle.t T) : bool :=
  (Ball.x b + of_int (Ball.radius b) >=? Paddle.x p - of_int (Paddle.width p ÷ 2))%D
  && (Ball.x b - of_int (Ball.radius b) <=? Paddle.x p + of_int (Paddle.width p ÷ 2))%D
  && (Ball.y b + of_int (Ball.radius b) >=? Paddle.y p - of_int (Paddle.height p ÷ 2))%D
  && (Ball.y b - of_int (Ball.radius b) <=? Paddle.y p + of_int (Paddle.height p ÷ 2))%D.

(** The ball's vertical extent (centre +- radius) meets the paddle's, and
    the ball's centre lies between the paddle's left and right edges. *)
Definition centre_over_paddle (b : Ball.t T) (p : Paddle.t T) : bool :=
  ((Paddle.y p - of_int (Paddle.height p ÷ 2) <=? Ball.y b + of_int (Ball.radius b))%D
   && (Ball.y b - of_int (Ball.radius b) <=? Paddle.y p + of_int (Paddle.height p ÷ 2))%D)
  && ((Paddle.x p - of_int (Paddle.width p ÷ 2) <=? Ball.x b)%D
      && (Ball.x b <=? Paddle.x p + of_int (Paddle.width p ÷ 2))%D).


(** The ball has left through the bottom: the test of the life loss. *)
Definition below_field (b : Ball.t T) : bool :=
  (Ball.y b - of_int (Ball.radius b) >? of_int WINDOW_HEIGHT)%D.

End BlockBreakerGame.

(** ** Concrete runs in binary64 *)

Module Run.

(** The generator of the C standard's example implementation of [rand]. *)
Definition rand (g : Z) : Z * Z :=
  let g' := (g * 1103515245 + 12345) mod 4294967296 in
  ((g' / 65536) mod 32768, g').

Definition b64 : Scalar float := binary64 B64.sin B64.cos.

Definition game : Type := Game float Z.

(** A new game, the generator seeded with 1. *)
Definition new : game := @BlockBreakerGame float b64 Z rand 1.

Definition op : Type := @Op float.

Definition exec (s : game) (ops : list op) : game := @run float b64 Z rand s ops.

Definition ticks (n : nat) : list op := repeat Tick n.

(** The first block falls at the 91st tick. *)
Definition first_block : list op := Start :: ticks 91.

(** Nobody moves the paddle: the first ball is lost at the 200th tick. *)
Definition first_life : list op := Start :: ticks 200.

(** The paddle is put aside before each of the next two balls, which are
    lost as well. *)
Definition three_lives : list op :=
  first_life
  ++ (SetPaddleX 50%float :: Start :: ticks 199)
  ++ (SetPaddleX 750%float :: Start :: ticks 199).


(** The first ball comes down at about x = 523; the paddle is put with its
    right edge (518) just left of the ball's centre. *)
Definition past_the_edge : list op := Start :: ticks 186 ++ [SetPaddleX 468%float].

(** Nobody moves the paddle at all: the second ball comes back onto the
    paddle, is sent up again and is lost at its 486th tick; the third is lost
    at its 260th. *)
Definition rally : list op := first_life ++ (Start :: ticks 486) ++ (Start :: ticks 260).

(** [|sqrt (dx * dx + dy * dy) - SPEED| < 1e-9], the literal [1e-9] being the
    double 0x1.12e0be826d695p-30. *)
Definition speed_ok (s : game) : bool :=
  let b := ball s in
  (PrimFloat.abs (PrimFloat.sqrt (Ball.dx b * Ball.dx b + Ball.dy b * Ball.dy b) - 5)
   <? 0x1.12e0be826d695p-30)%float.

(** The ticks of a run in which the paddle reflects the ball. *)
Fixpoint paddle_hits (s : game) (ops : list op) : nat :=
  match ops with
  | [] => O
  | o :: rest =>
      ((match o with
        | Tick =>
            if gameRunning s && negb (gameOver s)
               && @paddle_hit float b64 (@moved_ball float b64 Z s) (paddle s)
            then 1 else 0
        | _ => 0
        end) + paddle_hits (exec s [o]) rest)%nat
  end.

(** [P] holds in every state of a run. *)
Fixpoint always (P : game -> bool) (s : game) (ops : list op) : bool :=
  P s && match ops with
         | [] => true
         | o :: rest => always P (exec s [o]) rest
         end.

End Run.

(** ** Scenario S5 of the specification *)

Module S5.

(** A new game in play, the ball at (400, 590) with velocity (0, +5), the
    paddle at x = 100; libm and libc are arbitrary. *)
Definition state (libm_sin libm_cos : float -> float) (G : Type) (rand : G -> Z * G) (g0 : G)
  : Game float G :=
  let s := @BlockBreakerGame float (binary64 libm_sin libm_cos) G rand g0 in
  mkGame (Ball.mk 400%float 590%float 0%float 5%float BALL_RADIUS)
         (Paddle.set_x (paddle s) 100%float)
         (blocks s) true false (score s) (lives s) (rng s).

Definition ticks (libm_sin libm_cos : float -> float) (G : Type) (rand : G -> Z * G)
  (n : nat) (s : Game float G) : Game float G :=
  @run float (binary64 libm_sin libm_cos) G rand s (repeat Tick n).

End S5.

(** ** Speed, in exact arithmetic *)

(** The square of the velocity magnitude, [dx * dx + dy * dy]. *)
Definition speed_sq (b : Ball.t R) : R := (Ball.dx b * Ball.dx b + Ball.dy b * Ball.dy b)%R.

(** ** Places, in exact arithmetic *)




(** ** Scenario S2 of the specification, in exact arithmetic *)

Module S2.

(** A generator that always returns 0. *)
Definition rand (g : unit) : Z * unit := (0, g).

Definition arith : Scalar R := exact_arith 0.

(** A new game in play, the paddle at x = 400, the ball at (400, 570) with
    velocity (0, +5): the next tick brings the ball onto the paddle. *)
Definition state : Game R unit :=
  let s := @BlockBreakerGame R arith unit rand tt in
  mkGame (Ball.mk 400%R 570%R 0%R 5%R BALL_RADIUS)
         (paddle s) (blocks s) true false (score s) (lives s) (rng s).

End S2.

(** ** Drawing *)

Module Cairo.

Inductive font_slant_t : Type := FONT_SLANT_NORMAL | FONT_SLANT_ITALIC | FONT_SLANT_OBLIQUE.

Inductive font_weight_t : Type := FONT_WEIGHT_NORMAL | FONT_WEIGHT_BOLD.

(** The calls of the cairo API that the program makes, on the context [cr]
    and on the one gradient it holds at a time; [set_source] and
    [pattern_destroy] take that gradient. *)
Inductive call (T : Type) : Type :=
| set_source_rgb (red green blue : T)
| set_source_rgba (red green blue alpha : T)
| paint
| arc (xc yc radius angle1 angle2 : T)
| rectangle (x y width height : T)
| fill
| fill_preserve
| stroke
| set_line_width (width : T)
| move_to (x y : T)
| line_to (x y : T)
| pattern_create_linear (x0 y0 x1 y1 : T)
| pattern_add_color_stop_rgb (offset red green blue : T)
| set_source
| pattern_destroy
| select_font_face (family : string) (slant : font_slant_t) (weight : font_weight_t)
| set_font_size (size : T)
| show_text (utf8 : string).

Arguments paint {T}.
Arguments fill {T}.
Arguments fill_preserve {T}.
Arguments stroke {T}.
Arguments set_source {T}.
Arguments pattern_destroy {T}.
Arguments select_font_face {T} family slant weight.
Arguments show_text {T} utf8.

End Cairo.

(** [snprintf (buffer, size, "<text>%d", n)]: the text, then [n] in decimal,
    cut to the [size - 1] characters the buffer holds before its
    terminator. *)
Definition snprintf_d (size : nat) (text : string) (n : Z) : string :=
  String.substring 0 (size - 1) (text ++ NilZero.string_of_int (Z.to_int n))%string.

Section Drawing.

Context {T : Type} `{Scalar T} {G : Type}.

(** [Ball::draw] *)
Definition Ball_draw (b : Ball.t T) : list (Cairo.call T) :=
  [ Cairo.set_source_rgb (of_int 1) (dec 8 10) (of_int 0);
    Cairo.arc (Ball.x b) (Ball.y b) (of_int (Ball.radius b)) (of_int 0) (of_int 2 * M_PI)%D;
    Cairo.fill ].

(** [Paddle::draw] *)
Definition Paddle_draw (p : Paddle.t T) : list (Cairo.call T) :=
  [ Cairo.set_source_rgb (of_int 0) (dec 7 10) (of_int 1);
    Cairo.rectangle (Paddle.x p - of_int (Paddle.width p ÷ 2))%D
                    (Paddle.y p - of_int (Paddle.height p ÷ 2))%D
                    (of_int (Paddle.width p)) (of_int (Paddle.height p));
    Cairo.fill ].

(** [Block::draw] *)
Definition Block_draw (k : Block.t T) : list (Cairo.call T) :=
  if negb (Block.active k) then []
  else
    let x := Block.x k in
    let y := Block.y k in
    let width := Block.width k in
    let height := Block.height k in
    let r := Block.r k in
    let g := Block.g k in
    let b := Block.b k in
    [ Cairo.pattern_create_linear x y (x + of_int width)%D (y + of_int height)%D;
      Cairo.pattern_add_color_stop_rgb (of_int 0)
        (if (r * dec 12 10 >? of_int 1)%D then of_int 1 else (r * dec 12 10)%D)
        (if (g * dec 12 10 >? of_int 1)%D then of_int 1 else (g * dec 12 10)%D)
        (if (b * dec 12 10 >? of_int 1)%D then of_int 1 else (b * dec 12 10)%D);
      Cairo.pattern_add_color_stop_rgb (of_int 1)
        (r * dec 7 10)%D (g * dec 7 10)%D (b * dec 7 10)%D;
      Cairo.rectangle x y (of_int width) (of_int height);
      Cairo.set_source;
      Cairo.fill_preserve;
      Cairo.pattern_destroy;
      Cairo.set_source_rgba (of_int 1) (of_int 1) (of_int 1) (dec 5 10);
      Cairo.set_line_width (of_int 2);
      Cairo.move_to x (y + of_int height)%D;
      Cairo.line_to x y;
      Cairo.line_to (x + of_int width)%D y;
      Cairo.stroke;
      Cairo.set_source_rgba (of_int 0) (of_int 0) (of_int 0) (dec 5 10);
      Cairo.move_to (x + of_int width)%D y;
      Cairo.line_to (x + of_int width)%D (y + of_int height)%D;
      Cairo.line_to x (y + of_int height)%D;
      Cairo.stroke;
      Cairo.set_source_rgba (r * dec 8 10)%D (g * dec 8 10)%D (b * dec 8 10)%D (of_int 1);
      Cairo.rectangle (x + of_int 3)%D (y + of_int 3)%D
                      (of_int (width - 6)) (of_int (height - 6));
      Cairo.fill ].

(** The dark box in the middle of the window and the font of the game
    status message, the same in both branches of [draw]. *)
Definition message_box : list (Cairo.call T) :=
  [ Cairo.set_source_rgba (of_int 0) (of_int 0) (of_int 0) (dec 7 10);
    Cairo.rectangle (of_int (WINDOW_WIDTH ÷ 2 - 150)) (of_int (WINDOW_HEIGHT ÷ 2 - 30))
                    (of_int 300) (of_int 60);
    Cairo.fill;
    Cairo.set_source_rgb (of_int 1) (of_int 1) (of_int 1);
    Cairo.select_font_face "Sans" Cairo.FONT_SLANT_NORMAL Cairo.FONT_WEIGHT_BOLD;
    Cairo.set_font_size (of_int 24) ].

(** "Draw game status message" *)
Definition status_message (s : Game T G) : list (Cairo.call T) :=
  if negb (gameRunning s) && negb (gameOver s) then
    message_box
    ++ [ Cairo.move_to (of_int (WINDOW_WIDTH ÷ 2 - 140)) (of_int (WINDOW_HEIGHT ÷ 2 + 10));
         Cairo.show_text "Click to Start!" ]
  else if gameOver s then
    message_box
    ++ (if lives s <=? 0 then
          [ Cairo.move_to (of_int (WINDOW_WIDTH ÷ 2 - 140)) (of_int (WINDOW_HEIGHT ÷ 2 + 10));
            Cairo.show_text "Game Over!" ]
        else
          [ Cairo.move_to (of_int (WINDOW_WIDTH ÷ 2 - 140)) (of_int (WINDOW_HEIGHT ÷ 2 + 10));
            Cairo.show_text "You Win!" ])
    ++ [ Cairo.set_font_size (of_int 18);
         Cairo.move_to (of_int (WINDOW_WIDTH ÷ 2 - 120)) (of_int (WINDOW_HEIGHT ÷ 2 + 40));
         Cairo.show_text "Click to Play Again" ]
  else [].

(** [BlockBreakerGame::draw] *)
Definition draw (s : Game T G) : list (Cairo.call T) :=
  [ Cairo.set_source_rgb (dec 1 10) (dec 1 10) (dec 2 10); Cairo.paint ]
  ++ flat_map Block_draw (blocks s)
  ++ Paddle_draw (paddle s)
  ++ Ball_draw (ball s)
  ++ [ Cairo.set_source_rgb (of_int 1) (of_int 1) (of_int 1);
       Cairo.select_font_face "Sans" Cairo.FONT_SLANT_NORMAL Cairo.FONT_WEIGHT_BOLD;
       Cairo.set_font_size (of_int 20);
       Cairo.move_to (of_int 20) (of_int 30);
       Cairo.show_text (snprintf_d 50 "Score: " (score s));
       Cairo.move_to (of_int (WINDOW_WIDTH - 100)) (of_int 30);
       Cairo.show_text (snprintf_d 50 "Lives: " (lives s)) ]
  ++ status_message s.

(** The drawing callback of [main]. *)
Definition on_draw (s : Game T G) : list (Cairo.call T) := draw s.

(** The texts a drawing shows, in their order. *)
Definition texts (cs : list (Cairo.call T)) : list string :=
  flat_map (fun c => match c with Cairo.show_text t => [t] | _ => [] end) cs.

(** The colour components a drawing passes to cairo. *)
Definition colour_components (c : Cairo.call T) : list T :=
  match c with
  | Cairo.set_source_rgb r g b => [r; g; b]
  | Cairo.set_source_rgba r g b a => [r; g; b; a]
  | Cairo.pattern_add_color_stop_rgb _ r g b => [r; g; b]
  | _ => []
  end.

End Drawing.

(** ** The application *)

Section Application.

Context {T : Type} `{Scalar T} {G : Type} (rand : G -> Z * G).

(** [srand]: the generator starts again, from the state its argument gives
    it. *)
Definition srand (s : Game T G) (seeded : G) : Game T G :=
  mkGame (ball s) (paddle s) (blocks s) (gameRunning s) (gameOver s) (score s) (lives s)
         seeded.

(** The global [game] when [main] enters [gtk_main]: it is constructed
    before [main] runs, the generator being in its initial state [g0], and
    [main] seeds the generator after that. *)
Definition main (g0 seeded : G) : Game T G := srand (BlockBreakerGame rand g0) seeded.

(** The signals [main] connects to the callbacks that change the game. *)
Inductive Event : Type :=
| Timeout
| MotionNotify (event_x : T)
| ButtonPress.

Definition dispatch (s : Game T G) (e : Event) : Game T G :=
  match e with
  | Timeout => on_timeout rand s
  | MotionNotify event_x => on_motion_notify s event_x
  | ButtonPress => on_button_press rand s
  end.

(** The states of the global [game] while the application runs. *)
Inductive in_gtk_main (g0 : G) : Game T G -> Prop :=
| gtk_main_enter : forall seeded, in_gtk_main g0 (main g0 seeded)
| gtk_main_event : forall s e, in_gtk_main g0 s -> in_gtk_main g0 (dispatch s e).

(** ** The grid of blocks *)

(** Place and size of a block, and its colour. *)
Definition geometry (k : Block.t T) : T * T * Z * Z :=
  (Block.x k, Block.y k, Block.width k, Block.height k).

Definition colour (k : Block.t T) : T * T * T := (Block.r k, Block.g k, Block.b k).

(** The cell of the grid in row [row] and column [col]. *)
Definition grid_cell (row col : Z) : T * T * Z * Z :=
  (of_int (SIDE_MARGIN + col * (BLOCK_WIDTH + BLOCK_SPACING)),
   of_int (TOP_MARGIN + row * (BLOCK_HEIGHT + BLOCK_SPACING)),
   BLOCK_WIDTH, BLOCK_HEIGHT).

(** The cells row by row, each row from left to right: cell [i] is in row
    [i / BLOCK_COLS] and column [i mod BLOCK_COLS]. *)
Definition grid : list (T * T * Z * Z) :=
  map (fun i => grid_cell (Z.of_nat i / BLOCK_COLS) (Z.of_nat i mod BLOCK_COLS))
      (seq 0 (Z.to_nat (BLOCK_ROWS * BLOCK_COLS))).

(** The state of the generator after [n] calls of [rand()]. *)
Fixpoint rand_calls (n : nat) (g0 : G) : G :=
  match n with
  | O => g0
  | S n' => rand_calls n' (snd (rand g0))
  end.

(** A block changes by being deactivated, or not at all. *)
Definition deactivated (k k' : Block.t T) : Prop :=
  k' = k \/ (Block.active k = true /\ k' = Block.set_active k false).

(** What the constructor sets up and every operation keeps: the ball has the
    radius and the blocks have the places [resetGame] gives them, a game that
    is not over has an active block, and a game that is over is still
    running. *)
Definition settled (s : Game T G) : Prop :=
  Ball.radius (ball s) = BALL_RADIUS
  /\ map geometry (blocks s) = grid
  /\ (gameOver s = false -> ~ no_block_active (blocks s))
  /\ (gameOver s = true -> gameRunning s = true).

End Application.

(** A colour as [Block::Block] makes it from a non-negative value of
    [rand()]: each component is 0.3 + n / 100 with n in 0 .. 69. *)
Definition colour_in_range (c : R * R * R) : Prop :=
  (3 / 10 <= fst (fst c) <= 99 / 100
   /\ 3 / 10 <= snd (fst c) <= 99 / 100
   /\ 3 / 10 <= snd c <= 99 / 100)%R.

(** * Properties *)

(** ** Facts about the operations, for every arithmetic *)

Section Facts.

Context {T : Type} `{Scalar T} {G : Type} (rand : G -> Z * G).

Lemma all_active_app (ks1 ks2 : list (Block.t T)) :
  all_active (ks1 ++ ks2) = all_active ks1 && all_active ks2.
Proof. unfold all_active. apply forallb_app. Qed.

Lemma reset_cols_spec (n : nat) (row col : Z) (acc : list (Block.t T)) (g0 : G) :
  all_active acc = true ->
  all_active (fst (reset_cols rand n row col acc g0)) = true
  /\ length (fst (reset_cols rand n row col acc g0)) = (length acc + n)%nat.
Proof.
  revert col acc g0.
  induction n as [|n IH]; intros col acc g0 Hacc; cbn [reset_cols].
  - split; [assumption | simpl; lia].
  - set (k := Block_new rand _ _ BLOCK_WIDTH BLOCK_HEIGHT g0).
    destruct (IH (col + 1) (acc ++ [fst k]) (snd k)) as [Ha Hl].
    + rewrite all_active_app, Hacc. reflexivity.
    + split; [exact Ha|]. rewrite Hl, length_app. simpl. lia.
Qed.

Lemma reset_rows_spec (n : nat) (row : Z) (acc : list (Block.t T)) (g0 : G) :
  all_active acc = true ->
  all_active (fst (reset_rows rand n row acc g0)) = true
  /\ length (fst (reset_rows rand n row acc g0))
     = (length acc + n * Z.to_nat BLOCK_COLS)%nat.
Proof.
  revert row acc g0.
  induction n as [|n IH]; intros row acc g0 Hacc; cbn [reset_rows].
  - split; [assumption | simpl; lia].
  - destruct (reset_cols_spec (Z.to_nat BLOCK_COLS) row 0 acc g0 Hacc) as [Ha Hl].
    destruct (IH (row + 1) _ (snd (reset_cols rand (Z.to_nat BLOCK_COLS) row 0 acc g0)) Ha)
      as [Ha' Hl'].
    split; [exact Ha'|]. rewrite Hl', Hl. lia.
Qed.

(** What [resetGame] does, member by member: [score] and [lives] are not
    among the members it assigns. *)
Lemma resetGame_members (s : Game T G) :
  ball (resetGame rand s)
    = Ball.new (of_int (WINDOW_WIDTH ÷ 2)) (of_int (WINDOW_HEIGHT - 50)) BALL_RADIUS
  /\ paddle (resetGame rand s)
    = Paddle.mk (of_int (WINDOW_WIDTH ÷ 2)) (of_int (WINDOW_HEIGHT - 30))
        PADDLE_WIDTH PADDLE_HEIGHT
  /\ all_active (blocks (resetGame rand s)) = true
  /\ length (blocks (resetGame rand s)) = 45%nat
  /\ gameRunning (resetGame rand s) = false
  /\ gameOver (resetGame rand s) = false
  /\ score (resetGame rand s) = score s
  /\ lives (resetGame rand s) = lives s.
Proof.
  unfold resetGame, reset_with.
  cbn [ball paddle blocks gameRunning gameOver score lives].
  destruct (reset_rows_spec (Z.to_nat BLOCK_ROWS) 0 [] (rng s) eq_refl) as [Ha Hl].
  repeat split; first [assumption | exact Hl | reflexivity].
Qed.

(** The constructor: the same, with [score = 0] and [lives = 3]. *)
Lemma BlockBreakerGame_members (g0 : G) :
  all_active (blocks (BlockBreakerGame rand g0)) = true
  /\ length (blocks (BlockBreakerGame rand g0)) = 45%nat
  /\ gameRunning (BlockBreakerGame rand g0) = false
  /\ gameOver (BlockBreakerGame rand g0) = false
  /\ score (BlockBreakerGame rand g0) = 0
  /\ lives (BlockBreakerGame rand g0) = 3.
Proof.
  unfold BlockBreakerGame, reset_with.
  cbn [ball paddle blocks gameRunning gameOver score lives].
  destruct (reset_rows_spec (Z.to_nat BLOCK_ROWS) 0 [] g0 eq_refl) as [Ha Hl].
  repeat split; first [assumption | exact Hl | reflexivity].
Qed.

(** *** One tick, unfolded *)

(** [update] outside play does nothing. *)
Lemma tick_idle (s : Game T G) :
  gameRunning s = false \/ gameOver s = true -> tick rand s = s.
Proof.
  intros [Hr | Ho]; unfold tick, update, update_with; rewrite ?Hr, ?Ho.
  - reflexivity.
  - rewrite orb_true_r. reflexivity.
Qed.

(** [update] in play: the six steps in their order. *)
Lemma tick_playing (s : Game T G) :
  gameRunning s = true -> gameOver s = false ->
  tick rand s =
    let r := hit_blocks rand block_collision
               (paddle_collision (moved_ball s) (paddle s)) (blocks s) (score s) (rng s) in
    check_win (ball_lost
      (mkGame (fst (fst (fst r))) (paddle s) (snd (fst (fst r))) true false
              (snd (fst r)) (lives s) (snd r))).
Proof.
  intros Hr Ho. unfold tick, update, update_with, moved_ball. rewrite Hr, Ho.
  cbn [negb orb].
  destruct (hit_blocks rand block_collision _ (blocks s) (score s) (rng s))
    as [[[b' ks'] sc'] g'].
  reflexivity.
Qed.

(** *** Blocks and score *)

Lemma inactive_count_cons (k : Block.t T) (ks : list (Block.t T)) :
  inactive_count (k :: ks) = (if Block.active k then 0 else 1) + inactive_count ks.
Proof.
  unfold inactive_count. cbn [filter].
  destruct (Block.active k); cbn [negb length]; lia.
Qed.

Lemma all_active_inactive_count (ks : list (Block.t T)) :
  all_active ks = true -> inactive_count ks = 0.
Proof.
  induction ks as [|k ks IH]; intros Ha.
  - reflexivity.
  - unfold all_active in Ha. cbn [forallb] in Ha.
    apply andb_true_iff in Ha. destruct Ha as [Hk Hks].
    rewrite inactive_count_cons, Hk, (IH Hks). reflexivity.
Qed.

(** The loop over the blocks adds 10 to the score for the block it
    deactivates, whatever the collision test. *)
Lemma hit_blocks_score (coll : Ball.t T -> Block.t T -> bool * Z)
  (b : Ball.t T) (ks : list (Block.t T)) (sc : Z) (g0 : G) :
  snd (fst (hit_blocks rand coll b ks sc g0))
  - 10 * inactive_count (snd (fst (fst (hit_blocks rand coll b ks sc g0))))
  = sc - 10 * inactive_count ks.
Proof.
  induction ks as [|k ks IH]; cbn [hit_blocks].
  - reflexivity.
  - destruct (Block.active k) eqn:Hk; cbn [negb].
    + destruct (coll b k) as [[|] side].
      * cbn [fst snd]. rewrite !inactive_count_cons, Hk. cbn [Block.set_active Block.active]. lia.
      * destruct (hit_blocks rand coll b ks sc g0) as [[[b' ks'] sc'] g'].
        cbn [fst snd] in *. rewrite !inactive_count_cons, Hk. lia.
    + destruct (hit_blocks rand coll b ks sc g0) as [[[b' ks'] sc'] g'].
      cbn [fst snd] in *. rewrite !inactive_count_cons, Hk. lia.
Qed.

Lemma ball_lost_blocks_score (s : Game T G) :
  blocks (ball_lost s) = blocks s /\ score (ball_lost s) = score s.
Proof.
  unfold ball_lost.
  destruct (Ball.y (ball s) - of_int (Ball.radius (ball s)) >? of_int WINDOW_HEIGHT)%D;
    [destruct (lives s - 1 <=? 0)|]; split; reflexivity.
Qed.

Lemma check_win_blocks_score (s : Game T G) :
  blocks (check_win s) = blocks s /\ score (check_win s) = score s
  /\ lives (check_win s) = lives s.
Proof.
  unfold check_win. destruct (allBlocksDestroyed (blocks s)); repeat split.
Qed.

Lemma tick_score_counts (s : Game T G) : score_counts s -> score_counts (tick rand s).
Proof.
  unfold score_counts, score_per_block. intros Hs.
  destruct (gameRunning s) eqn:Hr; [destruct (gameOver s) eqn:Ho|].
  - rewrite tick_idle by (right; exact Ho). exact Hs.
  - rewrite (tick_playing s Hr Ho). cbv zeta.
    destruct (check_win_blocks_score (ball_lost
      (mkGame (fst (fst (fst (hit_blocks rand block_collision
                 (paddle_collision (moved_ball s) (paddle s)) (blocks s) (score s) (rng s)))))
              (paddle s)
              (snd (fst (fst (hit_blocks rand block_collision
                 (paddle_collision (moved_ball s) (paddle s)) (blocks s) (score s) (rng s)))))
              true false
              (snd (fst (hit_blocks rand block_collision
                 (paddle_collision (moved_ball s) (paddle s)) (blocks s) (score s) (rng s))))
              (lives s)
              (snd (hit_blocks rand block_collision
                 (paddle_collision (moved_ball s) (paddle s)) (blocks s) (score s) (rng s))))))
      as (Hb & Hc & _).
    rewrite Hb, Hc.
    match goal with |- context [ball_lost ?m] =>
      destruct (ball_lost_blocks_score m) as [Hb' Hc'] end.
    rewrite Hb', Hc'. cbn [blocks score].
    pose proof (hit_blocks_score block_collision
      (paddle_collision (moved_ball s) (paddle s)) (blocks s) (score s) (rng s)) as Hh.
    lia.
  - rewrite tick_idle by (left; exact Hr). exact Hs.
Qed.

(** In a round (no [resetGame] after the construction) the score is 10 times
    the number of inactive blocks. *)
Lemma score_counts_in_round (s : Game T G) :
  reachable_in_round rand s -> score_counts s.
Proof.
  induction 1 as [g0 | s o Hs IH Ho].
  - destruct (BlockBreakerGame_members g0) as (Ha & _ & _ & _ & Hsc & _).
    unfold score_counts. rewrite Hsc, (all_active_inactive_count _ Ha). reflexivity.
  - destruct o as [|px| |]; cbn [apply_op].
    + contradiction Ho; reflexivity.
    + exact IH.
    + exact IH.
    + apply tick_score_counts, IH.
Qed.

(** [resetGame] reactivates the blocks and keeps the score: after it the
    score counts no block unless it was 0. *)
Lemma resetGame_score_counts (s : Game T G) :
  score_counts (resetGame rand s) <-> score s = 0.
Proof.
  destruct (resetGame_members s) as (_ & _ & Ha & _ & _ & _ & Hsc & _).
  unfold score_counts, score_per_block.
  rewrite Hsc, (all_active_inactive_count _ Ha). lia.
Qed.

(** *** Lives and the end of the game *)

Lemma allBlocksDestroyed_spec (ks : list (Block.t T)) :
  allBlocksDestroyed ks = true <-> no_block_active ks.
Proof.
  unfold allBlocksDestroyed, no_block_active. rewrite forallb_forall.
  split; intros Hk k Hin; specialize (Hk k Hin).
  - apply negb_true_iff in Hk. exact Hk.
  - rewrite Hk. reflexivity.
Qed.

Lemma all_active_some_active (ks : list (Block.t T)) :
  all_active ks = true -> ks <> [] -> ~ no_block_active ks.
Proof.
  intros Ha Hne Hno. destruct ks as [|k ks]; [contradiction Hne; reflexivity|].
  unfold all_active in Ha. cbn [forallb] in Ha. apply andb_true_iff in Ha.
  destruct Ha as [Hk _]. rewrite (Hno k (or_introl eq_refl)) in Hk. discriminate.
Qed.

Lemma tick_over_iff (s : Game T G) :
  0 <= lives s /\ over_iff s -> 0 <= lives (tick rand s) /\ over_iff (tick rand s).
Proof.
  intros [Hl Hs].
  destruct (gameRunning s) eqn:Hr; [destruct (gameOver s) eqn:Ho|].
  - rewrite tick_idle by (right; exact Ho). split; assumption.
  - assert (Hl1 : 1 <= lives s).
    { destruct (Z.eq_dec (lives s) 0) as [H0|H0]; [|lia].
      unfold over_iff in Hs. rewrite Ho in Hs.
      destruct Hs as [_ Hs]. discriminate (Hs (or_introl H0)). }
    rewrite (tick_playing s Hr Ho). cbv zeta.
    destruct (hit_blocks rand block_collision _ (blocks s) (score s) (rng s))
      as [[[b' ks'] sc'] g'].
    cbn [fst snd]. unfold over_iff, check_win, ball_lost.
    cbn [ball paddle blocks gameRunning gameOver score lives].
    destruct (Ball.y b' - of_int (Ball.radius b') >? of_int WINDOW_HEIGHT)%D;
      [destruct (Z.leb_spec (lives s - 1) 0)|];
      cbn [ball paddle blocks gameRunning gameOver score lives];
      destruct (allBlocksDestroyed ks') eqn:Hd;
      cbn [ball paddle blocks gameRunning gameOver score lives];
      (split; [lia|]); rewrite <- allBlocksDestroyed_spec, Hd;
      split; intros Hx; try reflexivity; try discriminate;
      try (left; lia); try (right; reflexivity);
      destruct Hx as [Hx|Hx]; try discriminate; lia.
  - rewrite tick_idle by (left; exact Hr). split; assumption.
Qed.

(** In a round the game is over exactly when no life or no active block is
    left. *)
Lemma over_iff_in_round (s : Game T G) :
  reachable_in_round rand s -> 0 <= lives s /\ over_iff s.
Proof.
  induction 1 as [g0 | s o Hs IH Ho].
  - destruct (BlockBreakerGame_members g0) as (Ha & Hlen & _ & Hov & _ & Hli).
    unfold over_iff. rewrite Hov, Hli. split; [lia|].
    split; [discriminate|]. intros [H3|Hno]; [discriminate|].
    exfalso. apply (all_active_some_active Ha); [|exact Hno].
    intros He. rewrite He in Hlen. discriminate.
  - destruct o as [|px| |]; cbn [apply_op].
    + contradiction Ho; reflexivity.
    + exact IH.
    + exact IH.
    + apply tick_over_iff, IH.
Qed.

(** [resetGame] clears [gameOver] and keeps [lives]: after it the
    equivalence holds only if a life was left. *)
Lemma resetGame_over_iff (s : Game T G) :
  over_iff (resetGame rand s) <-> lives s <> 0.
Proof.
  destruct (resetGame_members s) as (_ & _ & Ha & Hlen & _ & Hov & _ & Hli).
  unfold over_iff. rewrite Hov, Hli. split.
  - intros [_ Hx] H0. discriminate (Hx (or_introl H0)).
  - intros Hne. split; [discriminate|]. intros [H0|Hno]; [contradiction|].
    exfalso. apply (all_active_some_active Ha); [|exact Hno].
    intros He. rewrite He in Hlen. discriminate.
Qed.

(** *** Runs *)

Lemma run_app (s : Game T G) (ops1 ops2 : list (@Op T)) :
  run rand s (ops1 ++ ops2) = run rand (run rand s ops1) ops2.
Proof. unfold run. apply fold_left_app. Qed.

Lemma run_reachable (s : Game T G) (ops : list (@Op T)) :
  reachable rand s -> reachable rand (run rand s ops).
Proof.
  revert s. induction ops as [|o ops IH]; intros s Hs; cbn [run fold_left].
  - exact Hs.
  - apply IH. constructor. exact Hs.
Qed.

Lemma in_round_reachable (s : Game T G) : reachable_in_round rand s -> reachable rand s.
Proof. induction 1; constructor; assumption. Qed.

(** *** The side of a block *)

Lemma closest_side_nearest_point (b : Ball.t T) (k : Block.t T) :
  closest_side b k = side_code (nearest_point_side b k).
Proof.
  unfold closest_side, nearest_point_side, closest_point_on_rect, closestX, closestY.
  cbn [fst snd].
  destruct (_ =? Block.x k)%D; [reflexivity|].
  destruct (_ =? Block.x k + of_int (Block.width k))%D; [reflexivity|].
  destruct (_ =? Block.y k)%D; reflexivity.
Qed.

Lemma block_collision_with_nearest_point (first : Ball.t T -> Block.t T -> Z)
  (b : Ball.t T) (k : Block.t T) :
  block_collision_with first b k = nearest_point_collision b k.
Proof.
  unfold block_collision_with, nearest_point_collision.
  change (circle_rect_overlap b k)
    with (distanceSquared b k <? of_int (Ball.radius b * Ball.radius b))%D.
  destruct (distanceSquared b k <? of_int (Ball.radius b * Ball.radius b))%D.
  - rewrite closest_side_nearest_point. reflexivity.
  - reflexivity.
Qed.

Lemma hit_blocks_ext (c1 c2 : Ball.t T -> Block.t T -> bool * Z) :
  (forall b k, c1 b k = c2 b k) ->
  forall b ks sc g0, hit_blocks rand c1 b ks sc g0 = hit_blocks rand c2 b ks sc g0.
Proof.
  intros Hc b ks sc g0. induction ks as [|k ks IH]; cbn [hit_blocks].
  - reflexivity.
  - rewrite IH, Hc. reflexivity.
Qed.

Lemma update_with_ext (c1 c2 : Ball.t T -> Block.t T -> bool * Z) (s : Game T G) :
  (forall b k, c1 b k = c2 b k) -> update_with rand c1 s = update_with rand c2 s.
Proof.
  intros Hc. unfold update_with. rewrite (hit_blocks_ext c1 c2 Hc). reflexivity.
Qed.

(** *** Where the ball is *)

Lemma same_place_refl (b : Ball.t T) : same_place b b.
Proof. repeat split. Qed.

Lemma same_place_trans (b1 b2 b3 : Ball.t T) :
  same_place b1 b2 -> same_place b2 b3 -> same_place b1 b3.
Proof.
  unfold same_place. intros (Hx & Hy & Hr) (Hx' & Hy' & Hr').
  rewrite Hx', Hy', Hr'. repeat split; assumption.
Qed.

Lemma wall_collision_place (b : Ball.t T) : same_place b (wall_collision b).
Proof.
  unfold wall_collision.
  destruct (_ || _); cbn [Ball.set_dx Ball.x Ball.y Ball.radius];
    destruct (_ <=? of_int 0)%D; repeat split.
Qed.

Lemma paddle_collision_place (b : Ball.t T) (p : Paddle.t T) :
  same_place b (paddle_collision b p).
Proof.
  unfold paddle_collision, paddle_bounce. destruct (paddle_hit b p); repeat split.
Qed.

Lemma bounce_off_place (b : Ball.t T) (side : Z) (g0 : G) :
  same_place b (fst (bounce_off rand b side g0)).
Proof.
  unfold bounce_off.
  destruct ((side =? 0) || (side =? 2)); [|destruct ((side =? 1) || (side =? 3))];
    repeat split.
Qed.

Lemma hit_blocks_place (coll : Ball.t T -> Block.t T -> bool * Z)
  (b : Ball.t T) (ks : list (Block.t T)) (sc : Z) (g0 : G) :
  same_place b (fst (fst (fst (hit_blocks rand coll b ks sc g0)))).
Proof.
  induction ks as [|k ks IH]; cbn [hit_blocks].
  - apply same_place_refl.
  - destruct (Block.active k); cbn [negb].
    + destruct (coll b k) as [[|] side].
      * apply bounce_off_place.
      * destruct (hit_blocks rand coll b ks sc g0) as [[[b' ks'] sc'] g']. exact IH.
    + destruct (hit_blocks rand coll b ks sc g0) as [[[b' ks'] sc'] g']. exact IH.
Qed.

(** The ball of [update] when it reaches "Check if ball falls below the
    screen" is where [Ball::move] put it. *)
Lemma before_ball_lost_place (s : Game T G) :
  same_place (Ball.move (ball s))
    (fst (fst (fst (hit_blocks rand block_collision
       (paddle_collision (moved_ball s) (paddle s)) (blocks s) (score s) (rng s))))).
Proof.
  eapply same_place_trans; [apply wall_collision_place|].
  eapply same_place_trans; [apply paddle_collision_place|].
  apply hit_blocks_place.
Qed.

(** *** The paddle *)

Lemma paddle_hit_centre_over_paddle (b : Ball.t T) (p : Paddle.t T) :
  paddle_hit b p = centre_over_paddle b p.
Proof.
  unfold paddle_hit, centre_over_paddle. rewrite <- !andb_assoc. reflexivity.
Qed.

Lemma paddle_hit_same_place (b b' : Ball.t T) (p : Paddle.t T) :
  same_place b b' -> paddle_hit b' p = paddle_hit b p.
Proof.
  intros (Hx & Hy & Hr). unfold paddle_hit. rewrite Hx, Hy, Hr. reflexivity.
Qed.

(** [movePaddle] changes the paddle, and the ball's [x] before the serve. *)
Lemma movePaddle_frame (s : Game T G) (x : T) :
  movePaddle s x =
    mkGame (if negb (gameRunning s) && negb (gameOver s)
            then Ball.set_x (ball s) (Paddle.x (Paddle.move (paddle s) x))
            else ball s)
           (Paddle.move (paddle s) x)
           (blocks s) (gameRunning s) (gameOver s) (score s) (lives s) (rng s).
Proof. reflexivity. Qed.

Lemma Paddle_move_shape (p : Paddle.t T) (x : T) :
  paddle_shape p -> paddle_shape (Paddle.move p x).
Proof.
  unfold paddle_shape, Paddle.move. intros Hp.
  destruct (_ <? of_int 0)%D; [|destruct (_ >? of_int WINDOW_WIDTH)%D]; exact Hp.
Qed.

Lemma tick_paddle (s : Game T G) : paddle (tick rand s) = paddle s.
Proof.
  destruct (gameRunning s) eqn:Hr; [destruct (gameOver s) eqn:Ho|].
  - rewrite tick_idle by (right; exact Ho). reflexivity.
  - rewrite (tick_playing s Hr Ho). cbv zeta.
    destruct (hit_blocks rand block_collision _ (blocks s) (score s) (rng s))
      as [[[b' ks'] sc'] g'].
    cbn [fst snd]. unfold check_win, ball_lost.
    cbn [ball paddle blocks gameRunning gameOver score lives].
    destruct (_ >? of_int WINDOW_HEIGHT)%D; [destruct (lives s - 1 <=? 0)|];
      cbn [blocks]; destruct (allBlocksDestroyed ks'); reflexivity.
  - rewrite tick_idle by (left; exact Hr). reflexivity.
Qed.

(** The paddle keeps its height, its size and, in [x], the width it needs
    for its half-extents to be 50 and 10. *)
Lemma reachable_paddle_shape (s : Game T G) :
  reachable rand s -> paddle_shape (paddle s).
Proof.
  induction 1 as [g0 | s o Hs IH].
  - repeat split.
  - destruct o as [|px| |]; cbn [apply_op].
    + destruct (resetGame_members s) as (_ & Hp & _). rewrite Hp. repeat split.
    + rewrite movePaddle_frame. cbn [paddle]. apply Paddle_move_shape, IH.
    + exact IH.
    + rewrite tick_paddle. exact IH.
Qed.

(** *** What the loops keep *)







End Facts.

(** ** The claims *)

(** C1 (reset): [resetGame] reinitialises the ball, the paddle and the
    blocks and clears [gameRunning] and [gameOver], but it leaves [score] and
    [lives] as they are.  After the first lost ball of the run [Run.first_life]
    (score 10, 2 lives) a reset yields a game with score 10 and 2 lives, not
    0 and 3. *)
Theorem resetGame_after_first_life :
  let played := Run.exec Run.new Run.first_life in
  let again := Run.exec played [Reset] in
  score played = 10 /\ lives played = 2
  /\ all_active (blocks again) = true /\ gameRunning again = false /\ gameOver again = false
  /\ score again = 10 /\ lives again = 2.
Proof. vm_compute. repeat split. Qed.

Lemma exec_reachable (ops : list Run.op) :
  @reachable float Run.b64 Z Run.rand (Run.exec Run.new ops).
Proof. unfold Run.exec, Run.new. apply run_reachable. constructor. Qed.

(** C2 (over iff no life or no active block): the equivalence holds in a
    round ([over_iff_in_round]) and is lost by [resetGame], which clears
    [gameOver] and keeps [lives].  After the three lost balls of
    [Run.three_lives] the game is over with no life left; a reset gives a
    reachable state with [gameOver = false] and [lives = 0]. *)
Theorem resetGame_after_last_life :
  let lost := Run.exec Run.new Run.three_lives in
  let again := Run.exec lost [Reset] in
  lives lost = 0 /\ gameOver lost = true
  /\ @reachable float Run.b64 Z Run.rand again
  /\ gameOver again = false /\ lives again = 0
  /\ ~ over_iff again.
Proof.
  cbv zeta.
  assert (Hl : lives (Run.exec Run.new Run.three_lives) = 0) by (vm_compute; reflexivity).
  split; [exact Hl|].
  split; [vm_compute; reflexivity|].
  split; [unfold Run.exec at 1; apply run_reachable, exec_reachable|].
  split; [vm_compute; reflexivity|].
  split; [vm_compute; reflexivity|].
  revert Hl. generalize (Run.exec Run.new Run.three_lives). intros s Hl.
  change (Run.exec s [Reset]) with (@resetGame float Run.b64 Z Run.rand s).
  rewrite resetGame_over_iff. intros Hne. apply Hne. exact Hl.
Qed.

(** C3 (score = 10 x inactive blocks): the equation holds in a round
    ([score_counts_in_round]) and is lost by [resetGame], which reactivates
    the blocks and keeps [score].  After the first destroyed block of
    [Run.first_block] a reset gives a reachable state with score 10 and no
    inactive block. *)
Theorem resetGame_after_first_block :
  let played := Run.exec Run.new Run.first_block in
  let again := Run.exec played [Reset] in
  score played = 10 /\ inactive_count (blocks played) = 1
  /\ @reachable float Run.b64 Z Run.rand again
  /\ score again = 10 /\ inactive_count (blocks again) = 0
  /\ score again <> score_per_block * inactive_count (blocks again).
Proof.
  cbv zeta.
  split; [vm_compute; reflexivity|].
  split; [vm_compute; reflexivity|].
  split; [unfold Run.exec at 1; apply run_reachable, exec_reachable|].
  assert (Hs : score (Run.exec (Run.exec Run.new Run.first_block) [Reset]) = 10)
    by (vm_compute; reflexivity).
  assert (Hc : inactive_count (blocks (Run.exec (Run.exec Run.new Run.first_block) [Reset])) = 0)
    by (vm_compute; reflexivity).
  split; [exact Hs|]. split; [exact Hc|].
  revert Hs Hc. generalize (Run.exec (Run.exec Run.new Run.first_block) [Reset]).
  intros s Hs Hc. rewrite Hs, Hc. unfold score_per_block. lia.
Qed.

Section Every_arithmetic.

Context {T : Type} `{Scalar T} {G : Type} (rand : G -> Z * G).

(** C5 (side of the hit): the collision test of [update] is the
    nearest-point test of the specification, whose order of tests puts left
    and right before top and bottom; [update] is the tick that uses that test
    alone, and it stays the same tick whatever value the time-of-impact
    classification gives to [collisionSide] first. *)
Theorem nearest_point_side_takes_effect (first : Ball.t T -> Block.t T -> Z)
  (s : Game T G) :
  (forall b k, block_collision b k = nearest_point_collision b k)
  /\ update rand s = update_with rand nearest_point_collision s
  /\ update_with rand (block_collision_with first) s = update rand s.
Proof.
  split; [|split].
  - intros b k. apply block_collision_with_nearest_point.
  - apply update_with_ext. intros b k. apply block_collision_with_nearest_point.
  - apply update_with_ext. intros b k. unfold block_collision.
    rewrite !block_collision_with_nearest_point. reflexivity.
Qed.

(** C6, amended (paddle reflection): [update] applies the paddle reflection
    exactly when, after the motion integration, the vertical extent of the
    ball (centre +- radius) meets the paddle's and the centre of the ball lies
    between the paddle's left and right edges. *)
Theorem paddle_reflection_condition (s : Game T G) :
  update rand s =
    if negb (gameRunning s) || gameOver s then (true, s)
    else
      let b :=
        if centre_over_paddle (Ball.move (ball s)) (paddle s)
        then paddle_bounce (moved_ball s) (paddle s)
        else moved_ball s in
      let '(b, ks, score1, g1) :=
        hit_blocks rand block_collision b (blocks s) (score s) (rng s) in
      (true, check_win (ball_lost
         (mkGame b (paddle s) ks (gameRunning s) (gameOver s) score1 (lives s) g1))).
Proof.
  unfold update, update_with.
  destruct (negb (gameRunning s) || gameOver s); [reflexivity|].
  unfold paddle_collision, moved_ball.
  rewrite (paddle_hit_same_place (paddle s) (wall_collision_place (Ball.move (ball s)))).
  rewrite paddle_hit_centre_over_paddle.
  reflexivity.
Qed.

(** No clamping: a tick in play leaves the centre of the ball exactly where
    the motion integration put it, at (x + dx, y + dy), except when that
    place is entirely below the field and a life remains: then the ball is
    put back on the paddle, at (paddle.x, H - 50), and the game waits. *)
Lemma tick_keeps_moved_position (s : Game T G) :
  gameRunning s = true -> gameOver s = false ->
  if below_field (Ball.move (ball s)) && (0 <? lives s - 1)
  then Ball.x (ball (tick rand s)) = Paddle.x (paddle s)
       /\ Ball.y (ball (tick rand s)) = of_int (WINDOW_HEIGHT - 50)
       /\ gameRunning (tick rand s) = false
  else Ball.x (ball (tick rand s)) = Ball.x (Ball.move (ball s))
       /\ Ball.y (ball (tick rand s)) = Ball.y (Ball.move (ball s)).
Proof.
  intros Hr Ho. rewrite (tick_playing rand s Hr Ho). cbv zeta.
  pose proof (before_ball_lost_place rand s) as (Hx & Hy & Hrad).
  destruct (hit_blocks rand block_collision _ (blocks s) (score s) (rng s))
    as [[[b' ks'] sc'] g'].
  cbn [fst snd] in *.
  unfold below_field, check_win, ball_lost.
  cbn [ball paddle blocks gameRunning gameOver score lives].
  rewrite Hy, Hrad.
  destruct (Ball.y (Ball.move (ball s)) - of_int (Ball.radius (Ball.move (ball s)))
            >? of_int WINDOW_HEIGHT)%D; cbn [andb].
  - rewrite Z.leb_antisym.
    destruct (0 <? lives s - 1); cbn [negb];
      cbn [ball paddle blocks gameRunning gameOver score lives];
      destruct (allBlocksDestroyed ks');
      cbn [ball gameRunning Ball.set_x Ball.set_y Ball.set_dx Ball.set_dy Ball.x Ball.y];
      repeat split; assumption.
  - cbn [ball blocks]. destruct (allBlocksDestroyed ks'); cbn [ball]; split; assumption.
Qed.

End Every_arithmetic.

(** The nearest-point rule at a corner: the ball at (15, 45) is nearest to
    the top-left corner (20, 50) of the first block, and the side is the left
    one. *)
Example corner_tie_is_left :
  let b := Ball.mk 15%float 45%float 3%float 4%float BALL_RADIUS in
  let k := Block.mk 20%float 50%float BLOCK_WIDTH BLOCK_HEIGHT true 0%float 0%float 0%float in
  @closestX float Run.b64 b k = 20%float
  /\ @closestY float Run.b64 b k = 50%float
  /\ @block_collision float Run.b64 b k = (true, side_code Left).
Proof. vm_compute. repeat split. Qed.

(** C6, as stated, fails: in the reachable state [Run.past_the_edge] the
    ball's bounding extent meets the paddle's rectangle after the motion
    integration (the ball's left edge, at about 512.9, is left of the paddle's
    right edge, 518), but its centre (522.9) is beyond that edge: the tick
    applies no reflection and the ball keeps moving down with its velocity. *)
Lemma extent_overlap_without_reflection :
  let s := Run.exec Run.new Run.past_the_edge in
  let m := @Ball.move float Run.b64 (ball s) in
  @reachable float Run.b64 Z Run.rand s
  /\ gameRunning s = true /\ gameOver s = false
  /\ @extent_overlaps_paddle float Run.b64 m (paddle s) = true
  /\ @centre_over_paddle float Run.b64 m (paddle s) = false
  /\ ball (@tick float Run.b64 Z Run.rand s) = m
  /\ Ball.dy m = Ball.dy (ball s)
  /\ (0 <? Ball.dy m)%float = true.
Proof.
  cbv zeta. split; [apply exec_reachable|].
  vm_compute. repeat split.
Qed.


(** The first tick after the serve, in binary64: the ball is where the move
    put it. *)
Example first_tick_position :
  let s := Run.exec Run.new [Start] in
  Ball.x (ball (@tick float Run.b64 Z Run.rand s)) = Ball.x (@Ball.move float Run.b64 (ball s))
  /\ Ball.y (ball (@tick float Run.b64 Z Run.rand s)) = Ball.y (@Ball.move float Run.b64 (ball s)).
Proof.
  exact (@tick_keeps_moved_position float Run.b64 Z Run.rand
           (Run.exec Run.new [Start]) eq_refl eq_refl).
Qed.

(** C9, as stated, fails: after a single tick from the state of scenario S5
    the ball is at (400, 595); its top edge, at 585, is not below the bottom
    edge 600, no life is lost and the game goes on. *)
Lemma s5_single_tick_loses_no_life :
  let s := S5.ticks B64.sin B64.cos Run.rand 1 (S5.state B64.sin B64.cos Run.rand 1) in
  lives s = 3 /\ gameRunning s = true
  /\ Ball.x (ball s) = 400%float /\ Ball.y (ball s) = 595%float
  /\ Ball.dx (ball s) = 0%float /\ Ball.dy (ball s) = 5%float.
Proof. vm_compute. repeat split. Qed.

(** C9, amended (scenario S5): from that state the ball is lost at the
    fifth tick (its top edge is below the bottom edge when its centre is
    beyond 610), whatever libm and [rand] are: the first four ticks leave
    3 lives and the game running; after the fifth there are 2 lives, the game
    waits, and the ball is at (100, 550) with the initial velocity
    (SPEED cos(pi/4), - SPEED sin(pi/4)). *)
Theorem s5_fifth_tick_loses_a_life
  (libm_sin libm_cos : float -> float) (G : Type) (rand : G -> Z * G) (g0 : G) :
  let D := binary64 libm_sin libm_cos in
  let s := S5.state libm_sin libm_cos rand g0 in
  let after n := S5.ticks libm_sin libm_cos rand n s in
  (lives (after 1%nat) = 3 /\ gameRunning (after 1%nat) = true)
  /\ (lives (after 4%nat) = 3 /\ gameRunning (after 4%nat) = true
      /\ Ball.y (ball (after 4%nat)) = 610%float)
  /\ lives (after 5%nat) = 2
  /\ gameRunning (after 5%nat) = false
  /\ gameOver (after 5%nat) = false
  /\ Ball.x (ball (after 5%nat)) = 100%float
  /\ Ball.y (ball (after 5%nat)) = 550%float
  /\ Ball.dx (ball (after 5%nat)) = (@BALL_SPEED float D * fcos (M_PI / of_int 4))%D
  /\ Ball.dy (ball (after 5%nat)) = (- @BALL_SPEED float D * fsin (M_PI / of_int 4))%D.
Proof. vm_compute. repeat split. Qed.

(** ** Exact arithmetic *)

Section Exact_arithmetic.

Variable inf : R.
Context {G : Type} (rand : G -> Z * G).

#[local] Hint Extern 0 (Scalar R) => apply (exact_arith inf) : typeclass_instances.

Local Open Scope R_scope.

Ltac reals :=
  cbn [exact_arith fadd fsub fmul fdiv fneg fabs fsqrt fsin fcos flt fle feq of_int
       M_PI INFINITY BALL_SPEED dec
       Ball.set_x Ball.set_y Ball.set_dx Ball.set_dy Ball.x Ball.y Ball.dx Ball.dy
       Ball.radius fst snd] in *.

Ltac case_if :=
  match goal with |- context [if ?c then _ else _] => destruct c eqn:? end.

Lemma ltb_true (x y : R) : Exact.ltb x y = true <-> x < y.
Proof.
  unfold Exact.ltb. destruct (Rlt_dec x y); split; intros; auto; discriminate || contradiction.
Qed.

Lemma leb_true (x y : R) : Exact.leb x y = true <-> x <= y.
Proof.
  unfold Exact.leb. destruct (Rle_dec x y); split; intros; auto; discriminate || contradiction.
Qed.

(** *** The speed is kept *)

Lemma new_ball_speed (x y : R) (r : Z) : speed_sq (Ball.new x y r) = 25.
Proof.
  unfold speed_sq, Ball.new. cbn [Ball.dx Ball.dy]. unfold BALL_SPEED. reals.
  pose proof (sin2_cos2 (PI / 4)) as Hsc. unfold Rsqr in Hsc.
  replace (5 * cos (PI / 4) * (5 * cos (PI / 4)) + - (5) * sin (PI / 4) * (- (5) * sin (PI / 4)))
    with (25 * (sin (PI / 4) * sin (PI / 4) + cos (PI / 4) * cos (PI / 4))) by ring.
  rewrite Hsc. ring.
Qed.

Lemma move_speed (b : Ball.t R) : speed_sq (Ball.move b) = speed_sq b.
Proof. reflexivity. Qed.

Lemma wall_collision_speed (b : Ball.t R) : speed_sq (wall_collision b) = speed_sq b.
Proof. unfold wall_collision, speed_sq. repeat (case_if; reals); ring. Qed.

Lemma moved_ball_speed (s : Game R G) : speed_sq (moved_ball s) = speed_sq (ball s).
Proof. unfold moved_ball. rewrite wall_collision_speed. apply move_speed. Qed.

Lemma paddle_bounce_speed (b : Ball.t R) (p : Paddle.t R) :
  speed_sq (paddle_bounce b p) = speed_sq b.
Proof.
  unfold paddle_bounce, speed_sq. reals.
  set (a := (Ball.x b - Paddle.x p) / IZR (Paddle.width p ÷ 2) * (PI / 3)).
  set (q := Ball.dx b * Ball.dx b + - Rabs (Ball.dy b) * - Rabs (Ball.dy b)).
  assert (Hq : q = Ball.dx b * Ball.dx b + Ball.dy b * Ball.dy b).
  { unfold q. unfold Rabs. destruct (Rcase_abs (Ball.dy b)); ring. }
  assert (Hq0 : 0 <= q) by (rewrite Hq; nra).
  pose proof (sqrt_sqrt q Hq0) as Hs.
  pose proof (sin2_cos2 a) as Hsc. unfold Rsqr in Hsc.
  replace (sqrt q * sin a * (sqrt q * sin a) + - sqrt q * cos a * (- sqrt q * cos a))
    with (sqrt q * sqrt q * (sin a * sin a + cos a * cos a)) by ring.
  rewrite Hs, Hsc, Hq. ring.
Qed.

Lemma paddle_collision_speed (b : Ball.t R) (p : Paddle.t R) :
  speed_sq (paddle_collision b p) = speed_sq b.
Proof.
  unfold paddle_collision. destruct (paddle_hit b p); [apply paddle_bounce_speed | reflexivity].
Qed.

(** "Normalize speed": a velocity that is not zero is rescaled to SPEED. *)
Lemma normalize_speed (vx vy : R) :
  0 < vx * vx + vy * vy ->
  let s := sqrt (vx * vx + vy * vy) in
  vx / s * 5 * (vx / s * 5) + vy / s * 5 * (vy / s * 5) = 25.
Proof.
  intros Hq s.
  assert (Hs : s * s = vx * vx + vy * vy) by (apply sqrt_sqrt; lra).
  assert (Hs0 : s <> 0).
  { intros E. rewrite E in Hs. lra. }
  field_simplify; [|exact Hs0].
  replace (25 * vx ^ 2 + 25 * vy ^ 2) with (25 * (s * s)) by (rewrite Hs; ring).
  field. exact Hs0.
Qed.

(** The perturbation [(rand() % 100) / 500.0 - 0.1], whatever [rand()]
    returns. *)
Lemma perturb_bounds (n : Z) :
  - (3 / 10) < IZR (Z.rem n 100) / 500 - 1 / 10 < 1 / 10.
Proof.
  pose proof (Z.rem_bound_abs n 100 ltac:(lia)) as Hb.
  assert (H1 : (-100 < Z.rem n 100 < 100)%Z) by lia.
  destruct H1 as [Hl Hu]. apply IZR_lt in Hl, Hu. lra.
Qed.

Lemma perturbed_speed_pos (v w u : R) :
  v * v + w * w = 25 -> - (3 / 10) < u < 1 / 10 -> 0 < (v + u) * (v + u) + w * w.
Proof. intros Hv Hu. assert (-5 <= v <= 5) by nra. nra. Qed.

Lemma bounce_off_speed (b : Ball.t R) (side : Z) (g0 : G) :
  speed_sq b = 25 -> speed_sq (fst (bounce_off rand b side g0)) = 25.
Proof.
  unfold speed_sq, bounce_off. intros Hb.
  destruct ((side =? 0)%Z || (side =? 2)%Z); [|destruct ((side =? 1)%Z || (side =? 3)%Z)];
    reals; apply normalize_speed.
  - pose proof (perturb_bounds (fst (rand g0))) as Hu.
    replace (- Ball.dy b * - Ball.dy b) with (Ball.dy b * Ball.dy b) by ring.
    apply perturbed_speed_pos; assumption.
  - pose proof (perturb_bounds (fst (rand g0))) as Hu.
    replace (- Ball.dx b * - Ball.dx b) with (Ball.dx b * Ball.dx b) by ring.
    rewrite Rplus_comm. apply perturbed_speed_pos; [lra | assumption].
  - lra.
Qed.

Lemma hit_blocks_speed (coll : Ball.t R -> Block.t R -> bool * Z)
  (b : Ball.t R) (ks : list (Block.t R)) (sc : Z) (g0 : G) :
  speed_sq b = 25 ->
  speed_sq (fst (fst (fst (hit_blocks rand coll b ks sc g0)))) = 25.
Proof.
  intros Hb. induction ks as [|k ks IH]; cbn [hit_blocks].
  - exact Hb.
  - destruct (Block.active k); cbn [negb].
    + destruct (coll b k) as [[|] side].
      * cbn [fst]. apply bounce_off_speed, Hb.
      * destruct (hit_blocks rand coll b ks sc g0) as [[[b' ks'] sc'] g']. exact IH.
    + destruct (hit_blocks rand coll b ks sc g0) as [[[b' ks'] sc'] g']. exact IH.
Qed.

Lemma ball_lost_speed (s : Game R G) :
  speed_sq (ball s) = 25 -> speed_sq (ball (ball_lost s)) = 25.
Proof.
  intros Hs. unfold ball_lost.
  case_if; [destruct (lives s - 1 <=? 0)%Z|]; cbn [ball]; try exact Hs.
  apply (new_ball_speed 0 0 0).
Qed.

Lemma check_win_ball (s : Game R G) : ball (check_win s) = ball s.
Proof. unfold check_win. destruct (allBlocksDestroyed (blocks s)); reflexivity. Qed.

Lemma tick_speed (s : Game R G) :
  speed_sq (ball s) = 25 -> speed_sq (ball (tick rand s)) = 25.
Proof.
  intros Hs.
  destruct (gameRunning s) eqn:Hr; [destruct (gameOver s) eqn:Ho|].
  - rewrite tick_idle by (right; exact Ho). exact Hs.
  - rewrite (tick_playing rand s Hr Ho). cbv zeta.
    rewrite check_win_ball. apply ball_lost_speed. cbn [ball].
    apply hit_blocks_speed.
    rewrite paddle_collision_speed, moved_ball_speed. exact Hs.
  - rewrite tick_idle by (left; exact Hr). exact Hs.
Qed.

Lemma reachable_speed (s : Game R G) : reachable rand s -> speed_sq (ball s) = 25.
Proof.
  induction 1 as [g0 | s o Hs IH].
  - apply (new_ball_speed (IZR (WINDOW_WIDTH ÷ 2)) (IZR (WINDOW_HEIGHT - 50)) BALL_RADIUS).
  - destruct o as [|px| |]; cbn [apply_op].
    + destruct (resetGame_members rand s) as (Hb & _). rewrite Hb. apply new_ball_speed.
    + rewrite movePaddle_frame. cbn [ball].
      destruct (negb (gameRunning s) && negb (gameOver s)); exact IH.
    + exact IH.
    + apply tick_speed, IH.
Qed.


(** *** The paddle reflection *)

Lemma cos_ge_half (a : R) : - (PI / 3) <= a <= PI / 3 -> 1 / 2 <= cos a.
Proof.
  intros [Hl Hu]. pose proof PI_RGT_0 as Hpi. rewrite <- cos_PI3.
  destruct (Rle_dec 0 a) as [Ha|Ha].
  - apply cos_decr_1; lra.
  - rewrite <- (cos_neg a). apply cos_decr_1; lra.
Qed.

Lemma paddle_hit_true (b : Ball.t R) (p : Paddle.t R) :
  paddle_hit b p = true ->
  Paddle.y p - IZR (Paddle.height p ÷ 2) <= Ball.y b + IZR (Ball.radius b)
  /\ Ball.y b - IZR (Ball.radius b) <= Paddle.y p + IZR (Paddle.height p ÷ 2)
  /\ Paddle.x p - IZR (Paddle.width p ÷ 2) <= Ball.x b
  /\ Ball.x b <= Paddle.x p + IZR (Paddle.width p ÷ 2).
Proof.
  unfold paddle_hit. reals. rewrite !andb_true_iff, !leb_true. tauto.
Qed.

(** The hit position of a ball that the check finds on the paddle. *)
Lemma hitPos_range (b : Ball.t R) (p : Paddle.t R) :
  paddle_hit b p = true ->
  Paddle.width p = PADDLE_WIDTH ->
  -1 <= (Ball.x b - Paddle.x p) / (IZR PADDLE_WIDTH / 2) <= 1.
Proof.
  intros Hhit Hw.
  pose proof (paddle_hit_true _ _ Hhit) as (_ & _ & Hx1 & Hx2).
  rewrite Hw in Hx1, Hx2. change (IZR (PADDLE_WIDTH ÷ 2)) with 50 in Hx1, Hx2.
  change (IZR PADDLE_WIDTH) with 100. split.
  - apply Rmult_le_reg_r with (100 / 2); [lra|]. field_simplify. lra.
  - apply Rmult_le_reg_r with (100 / 2); [lra|]. field_simplify. lra.
Qed.

Lemma angle_range (h : R) : -1 <= h <= 1 -> - (PI / 3) <= h * PI / 3 <= PI / 3.
Proof. intros Hh. pose proof PI_RGT_0 as Hpi. split; nra. Qed.

(** The two components that the body of the paddle check assigns. *)
Lemma paddle_bounce_components (b : Ball.t R) (p : Paddle.t R) :
  Paddle.width p = PADDLE_WIDTH ->
  let hitPos := (Ball.x b - Paddle.x p) / (IZR PADDLE_WIDTH / 2) in
  Ball.dx (paddle_bounce b p) = sqrt (speed_sq b) * sin (hitPos * PI / 3)
  /\ Ball.dy (paddle_bounce b p) = - sqrt (speed_sq b) * cos (hitPos * PI / 3).
Proof.
  intros Hw hitPos. unfold paddle_bounce. reals.
  rewrite Hw. change (IZR (PADDLE_WIDTH ÷ 2)) with 50.
  replace (Ball.dx b * Ball.dx b + - Rabs (Ball.dy b) * - Rabs (Ball.dy b))
    with (speed_sq b).
  2:{ unfold speed_sq, Rabs. destruct (Rcase_abs (Ball.dy b)); ring. }
  replace ((Ball.x b - Paddle.x p) / 50 * (PI / 3)) with (hitPos * PI / 3).
  2:{ unfold hitPos. change (IZR PADDLE_WIDTH) with 100. field. }
  split; reflexivity.
Qed.


(** The same in a reachable state, where the speed is SPEED. *)
Lemma reachable_paddle_reflection (s : Game R G) :
  reachable rand s ->
  paddle_hit (moved_ball s) (paddle s) = true ->
  let hitPos := (Ball.x (moved_ball s) - Paddle.x (paddle s)) / (IZR PADDLE_WIDTH / 2) in
  let b' := paddle_collision (moved_ball s) (paddle s) in
  Ball.dx b' = 5 * sin (hitPos * PI / 3)
  /\ Ball.dy b' = - 5 * cos (hitPos * PI / 3)
  /\ Ball.dy b' <= - (5 / 2).
Proof.
  intros Hs Hhit hitPos b'.
  pose proof (reachable_speed Hs) as H25.
  destruct (reachable_paddle_shape Hs) as (_ & Hw & _).
  assert (H5 : sqrt (speed_sq (moved_ball s)) = 5).
  { rewrite moved_ball_speed, H25. replace 25 with (5 * 5) by ring.
    apply sqrt_square. lra. }
  pose proof (cos_ge_half (angle_range (hitPos_range _ _ Hhit Hw))) as Hc.
  destruct (paddle_bounce_components (moved_ball s) (paddle s) Hw) as [Hdx Hdy].
  rewrite H5 in Hdx, Hdy.
  assert (Hb' : b' = paddle_bounce (moved_ball s) (paddle s))
    by (unfold b', paddle_collision; rewrite Hhit; reflexivity).
  rewrite Hb'. unfold hitPos.
  split; [exact Hdx|]. split; [exact Hdy|]. rewrite Hdy. lra.
Qed.

(** *** The clamp of the paddle *)



(** *** Where the ball can be *)




















End Exact_arithmetic.



(** *** Witnesses *)







(** *** binary64 samples *)

(** [Paddle::move] in binary64, around the two bounds. *)
Example Paddle_move_binary64 :
  let p := Paddle.mk 400%float 570%float PADDLE_WIDTH PADDLE_HEIGHT in
  map (fun v => Paddle.x (@Paddle.move float Run.b64 p v))
      [(-5)%float; 49.5%float; 50%float; 400%float; 750%float; 750.5%float; 900%float]
  = [50%float; 50%float; 50%float; 400%float; 750%float; 750%float; 750%float].
Proof. vm_compute. reflexivity. Qed.

(** The speed along the run [Run.rally] in binary64, where the paddle
    reflects the ball once and six blocks are hit: in each of its 950 states
    the magnitude is within 1e-9 of SPEED. *)
Example speed_along_rally :
  Run.paddle_hits Run.new Run.rally = 1%nat
  /\ score (Run.exec Run.new Run.rally) = 60
  /\ Run.always Run.speed_ok Run.new Run.rally = true.
Proof. vm_compute. repeat split. Qed.
